(** * filter_cf_domains: the Cloudflare probe and its bounded dispatcher

    A shallow embedding of [src/filter_cf_domains.py].

    - [check_cloudflare] issues one HEAD request and classifies the response
      headers; the request either yields the response headers or raises.
    - [main] wraps every domain in [check_with_semaphore], lets the event loop
      run the tasks under an [asyncio.Semaphore], and folds the results, in
      completion order, into [cf_domains], [checked] and the printed lines.

    The network and the event loop are the environment: the session answers a
    URL with headers or an exception, and a schedule (a list of events)
    says which task is admitted or finishes next. *)

From Stdlib Require Import String Ascii List Bool Arith Lia Permutation.
Import ListNotations.
Open Scope string_scope.
Open Scope list_scope.
Open Scope nat_scope.

#[local] Arguments Nat.modulo : simpl never.

(** ** Strings *)

(** [str.lower()] on the characters the comparisons below can see: the
    literals compared against (cf-ray, server, cloudflare) are ASCII and hold
    no letter that a non-ASCII character lowers to, so lowering A-Z and
    leaving every other byte alone decides the same equalities. *)
Definition lower_ascii (c : ascii) : ascii :=
  let n := nat_of_ascii c in
  if (65 <=? n) && (n <=? 90) then ascii_of_nat (n + 32) else c.

Fixpoint lower (s : string) : string :=
  match s with
  | EmptyString => EmptyString
  | String c s' => String (lower_ascii c) (lower s')
  end.

(** ** Response headers: aiohttp's [CIMultiDictProxy]

    An ordered multi-map: a header name may occur several times, every
    occurrence is kept in arrival order, and names are compared regardless of
    case. *)
Module CIMultiDict.

Definition t := list (string * string).

Definition key_eqb (k1 k2 : string) : bool := String.eqb (lower k1) (lower k2).

(** [key in headers] *)
Definition contains (key : string) (headers : t) : bool :=
  existsb (fun kv => key_eqb (fst kv) key) headers.

(** [headers.get(key, default)]: the value of the first occurrence. *)
Fixpoint get (key default : string) (headers : t) : string :=
  match headers with
  | [] => default
  | (k, v) :: rest => if key_eqb k key then v else get key default rest
  end.

End CIMultiDict.

(** ** Exceptions and results *)

(** The exception classes a request can end in. The first six derive from
    [Exception]; [CancelledError], [KeyboardInterrupt] and [SystemExit] derive
    from [BaseException] only. *)
Inductive exn : Type :=
| ClientConnectorError   (* DNS failure, connection refused or reset *)
| ClientSSLError         (* TLS negotiation *)
| TimeoutError           (* ClientTimeout(total=TIMEOUT) expired *)
| BadHttpMessage         (* the response could not be parsed *)
| InvalidURL
| TooManyRedirects
| CancelledError
| KeyboardInterrupt
| SystemExit.

(** [isinstance(e, Exception)] *)
Definition is_Exception (e : exn) : bool :=
  match e with
  | CancelledError | KeyboardInterrupt | SystemExit => false
  | _ => true
  end.


Inductive result (A : Type) : Type :=
| Return (a : A)
| Raise (e : exn).
Arguments Return {A} a.
Arguments Raise {A} e.

Definition bind {A B : Type} (m : result A) (k : A -> result B) : result B :=
  match m with
  | Return a => k a
  | Raise e => Raise e
  end.

Notation "x <- m ;; k" := (bind m (fun x => k))
  (at level 61, m at next level, right associativity).

(** [try: body except Exception: handler]: a raised exception that is an
    instance of [Exception] runs the handler, any other one propagates. *)
Definition try_except_Exception {A : Type} (body : result A) (handler : result A)
  : result A :=
  match body with
  | Return a => Return a
  | Raise e => if is_Exception e then handler else Raise e
  end.

(** ** Configuration *)

Definition CONCURRENT_LIMIT : nat := 100.

(** ** The probe *)

(** [aiohttp.ClientSession]: what [session.head(url, ...)] ends in once
    awaited, the headers of the (final, redirects followed) response or a
    raised exception. *)
Record ClientSession : Type := { head : string -> result CIMultiDict.t }.

Definition url_of (domain : string) : string :=
  ("https://" ++ domain)%string.

(** The [try] block of [check_cloudflare]: [Some r] when the block executes
    [return r], [None] when control falls out of it. *)
Definition check_cloudflare_try (session : ClientSession) (domain : string)
  : result (option (string * bool)) :=
  headers <- head session (url_of domain) ;;
  if CIMultiDict.contains "cf-ray" headers
     || String.eqb (lower (CIMultiDict.get "server" EmptyString headers)) "cloudflare"
  then Return (Some (domain, true))
  else Return None.

Definition check_cloudflare (session : ClientSession) (domain : string)
  : result (string * bool) :=
  r <- try_except_Exception (check_cloudflare_try session domain) (Return None) ;;
  match r with
  | Some found => Return found
  | None => Return (domain, false)
  end.

(** ** The dispatcher *)

(** What the aggregation loop prints: the line of a match, and the line of a
    milestone. Both carry [checked] and [len(domains)]; the second also
    [len(cf_domains)]. *)
Inductive observation : Type :=
| MatchFound (checked total : nat) (domain : string)
| StillScanning (checked total found : nat).

(** The variables the [for] loop of [main] updates. *)
Record loop_state : Type := {
  cf_domains : list string;
  checked : nat;
  printed : list observation
}.

Definition loop_init : loop_state :=
  {| cf_domains := []; checked := 0; printed := [] |}.

(** One iteration of the loop body, on the pair a finished task returned. *)
Definition loop_body (total : nat) (st : loop_state) (r : string * bool)
  : loop_state :=
  let (domain, is_cf) := r in
  let checked' := checked st + 1 in
  if is_cf then
    {| cf_domains := cf_domains st ++ [domain];
       checked := checked';
       printed := printed st ++ [MatchFound checked' total domain] |}
  else if checked' mod 100 =? 0 then
    {| cf_domains := cf_domains st;
       checked := checked';
       printed := printed st ++ [StillScanning checked' total (length (cf_domains st))] |}
  else
    {| cf_domains := cf_domains st; checked := checked'; printed := printed st |}.

(** [for coro in asyncio.as_completed(tasks): domain, is_cf = await coro; ...]
    over the results in the order the tasks finished. Awaiting a task that
    raised re-raises in [main]. *)
Fixpoint main_loop (total : nat) (st : loop_state)
  (results : list (result (string * bool))) : result loop_state :=
  match results with
  | [] => Return st
  | r :: rest =>
      found <- r ;;
      main_loop total (loop_body total st found) rest
  end.


(** *** The event loop and the semaphore

    A task [check_with_semaphore(session, domain)] first waits in
    [semaphore.acquire()], then holds a slot while [check_cloudflare] awaits
    the network, and gives the slot back when the [async with] block is left,
    by [return] or by an exception alike. *)
Record loop_sched : Type := {
  semaphore : nat;                             (* the semaphore's value *)
  waiting : list string;                       (* tasks blocked in acquire *)
  in_flight : list string;                     (* tasks inside [async with] *)
  finished : list (result (string * bool))     (* results, in completion order *)
}.

Inductive event : Type :=
| Acquire (i : nat)     (* the i-th waiting task acquires the semaphore *)
| Release (i : nat).   (* the i-th task in flight leaves the [async with] block *)

(** The list without its element of index [i]. *)
Fixpoint remove_nth {A : Type} (i : nat) (l : list A) : list A :=
  match i, l with
  | _, [] => []
  | 0, _ :: l' => l'
  | S i', x :: l' => x :: remove_nth i' l'
  end.

(** [asyncio.Semaphore(limit)], every task created and not yet started. *)
Definition sched_init (limit : nat) (domains : list string) : loop_sched :=
  {| semaphore := limit; waiting := domains; in_flight := []; finished := [] |}.

(** One event of [check_with_semaphore]. [Acquire i]: the task enters
    [async with semaphore], which needs a positive value and takes one off.
    [Release i]: [return await check_cloudflare(session, domain)] ends, in a
    pair or in an exception; leaving the block gives the slot back, and the
    result joins those [as_completed] hands to the loop. An event that is
    not enabled has no next state. *)
Definition step (session : ClientSession) (e : event) (s : loop_sched)
  : option loop_sched :=
  match e with
  | Acquire i =>
      match nth_error (waiting s) i with
      | Some domain =>
          if 0 <? semaphore s then
            Some {| semaphore := semaphore s - 1;
                    waiting := remove_nth i (waiting s);
                    in_flight := in_flight s ++ [domain];
                    finished := finished s |}
          else None
      | None => None
      end
  | Release i =>
      match nth_error (in_flight s) i with
      | Some domain =>
          Some {| semaphore := semaphore s + 1;
                  waiting := waiting s;
                  in_flight := remove_nth i (in_flight s);
                  finished := finished s ++ [check_cloudflare session domain] |}
      | None => None
      end
  end.

(** The state a schedule leads to, if each of its events is enabled in turn. *)
Fixpoint exec (session : ClientSession) (schedule : list event) (s : loop_sched)
  : option loop_sched :=
  match schedule with
  | [] => Some s
  | e :: schedule' =>
      match step session e s with
      | Some s' => exec session schedule' s'
      | None => None
      end
  end.

(** No task is left: [as_completed] is exhausted. *)
Definition all_done (s : loop_sched) : bool :=
  match waiting s, in_flight s with
  | [], [] => true
  | _, _ => false
  end.

(** The body of [main] between reading the domains and saving the result,
    with the semaphore's width as a parameter. [None]: the schedule is not a
    run of the event loop that leaves no task behind. *)
Definition dispatch (limit : nat) (session : ClientSession)
  (domains : list string) (schedule : list event) : option (result loop_state) :=
  match exec session schedule (sched_init limit domains) with
  | Some s =>
      if all_done s then Some (main_loop (length domains) loop_init (finished s))
      else None
  | None => None
  end.

Definition main : ClientSession -> list string -> list event -> option (result loop_state) :=
  dispatch CONCURRENT_LIMIT.

(** The schedule that lets every task in at once and finishes them in
    submission order; it is a run when [n] tasks fit the semaphore. *)
Definition in_order_schedule (n : nat) : list event :=
  repeat (Acquire 0) n ++ repeat (Release 0) n.

(** The request of every domain ends in a response or in an exception that is
    an instance of [Exception]. *)
Definition benign (session : ClientSession) (domains : list string) : bool :=
  forallb (fun domain =>
             match head session (url_of domain) with
             | Return _ => true
             | Raise e => is_Exception e
             end) domains.

(** Events left before no task is: two for a waiting task, one for a task in
    flight. *)
Definition work_left (s : loop_sched) : nat :=
  2 * length (waiting s) + length (in_flight s).

(** ** Sample sessions and batches *)

Definition sample_session : ClientSession :=
  {| head := fun url =>
       if String.eqb url "https://a.test" then Return [("Server", "Cloudflare")]
       else if String.eqb url "https://cf.test" then Return [("CF-RAY", "8a1b2c3d4e5f-AMS")]
       else if String.eqb url "https://c.test" then Return [("Server", "nginx")]
       else if String.eqb url "https://two.test" then
         Return [("Server", "nginx"); ("Server", "cloudflare")]
       else if String.eqb url "https://stop.test" then Raise CancelledError
       else Raise TimeoutError |}.

(** Three domains through a semaphore of width two: b.test finishes first. *)
Definition sample_domains : list string := ["a.test"; "b.test"; "c.test"].

Definition sample_schedule : list event :=
  [Acquire 0; Acquire 0; Release 1; Acquire 0; Release 0; Release 0].

Definition sample_final : loop_sched :=
  {| semaphore := 2;
     waiting := [];
     in_flight := [];
     finished := [Return ("b.test", false); Return ("a.test", true);
                  Return ("c.test", false)] |}.

(** The same batch after its first three events. *)
Definition sample_midway : loop_sched :=
  {| semaphore := 1;
     waiting := ["c.test"];
     in_flight := ["a.test"];
     finished := [Return ("b.test", false)] |}.

(** ** The classification rule in the words of the specification *)

(** The headers hold a header of this name, whatever its case. *)
Definition has_header (name : string) (headers : CIMultiDict.t) : Prop :=
  exists k v, In (k, v) headers /\ lower k = lower name.

(** The headers hold a header of this name whose value, lowered, is [value]. *)
Definition has_header_value (name value : string) (headers : CIMultiDict.t) : Prop :=
  exists k v, In (k, v) headers /\ lower k = lower name /\ lower v = value.

(** [v] is the value of the first header of this name. *)
Definition first_header (name : string) (headers : CIMultiDict.t) (v : string) : Prop :=
  exists before k after,
    headers = before ++ (k, v) :: after /\
    lower k = lower name /\
    forall k' v', In (k', v') before -> lower k' <> lower name.

(** The printed lines the amended progress rule asks for, from the results
    in completion order: [k] results were seen before, [found] of them
    matches. A match always prints its line; a result that is no match prints
    a milestone when its ordinal is a multiple of 100, and nothing otherwise. *)
Fixpoint spec_observations (total k found : nat) (pairs : list (string * bool))
  : list observation :=
  match pairs with
  | [] => []
  | (domain, true) :: rest =>
      MatchFound (k + 1) total domain :: spec_observations total (k + 1) (found + 1) rest
  | (domain, false) :: rest =>
      (if (k + 1) mod 100 =? 0 then [StillScanning (k + 1) total found] else [])
      ++ spec_observations total (k + 1) found rest
  end.

(** ** Reading the domains and reporting

    The parts of [main] around the dispatcher: the loop over the rows that
    [csv.reader] yields (a row is the list of its fields, a blank line the
    empty list), and the lines printed before and after the batch. *)

#[local] Set Warnings "-abstract-large-number".
Definition MAX_DOMAINS : nat := 10000.
Definition OUTPUT_FILE : string := "cf_domains.json".

(** [for i, row in enumerate(reader)]: [i] is the index of [row], [domains]
    the list appended to so far. *)
Fixpoint read_rows (i : nat) (rows : list (list string)) (domains : list string)
  : list string :=
  match rows with
  | [] => domains
  | row :: rest =>
      if MAX_DOMAINS <=? i then domains                       (* break *)
      else if 2 <=? length row
           then read_rows (S i) rest (domains ++ [nth 1 row EmptyString])
           else read_rows (S i) rest domains
  end.

Definition read_domains (rows : list (list string)) : list string :=
  read_rows 0 rows [].

(** The second field of a row that has one. *)
Definition second_field (row : list string) : list string :=
  match row with
  | _ :: domain :: _ => [domain]
  | _ => []
  end.

(** What [main] prints, in the order of its [print] calls. *)
Inductive line : Type :=
| ReadCount (n : nat)              (* the number of domains read *)
| Starting (limit : nat)           (* the scan starts, with its concurrency *)
| Progress (o : observation)       (* a line of the aggregation loop *)
| Completed
| Scanned (n : nat)                (* len(domains) *)
| Found (n : nat)                  (* len(cf_domains) *)
| SavedTo (file : string).

Record main_output : Type := {
  stdout : list line;
  saved : list string       (* the list [json.dump] writes to OUTPUT_FILE *)
}.

(** [main] from the rows of the input file to the saved list. An exception
    raised in the loop leaves [main] before [json.dump] is reached. *)
Definition main_io (rows : list (list string)) (session : ClientSession)
  (schedule : list event) : option (result main_output) :=
  let domains := read_domains rows in
  match main session domains schedule with
  | Some r =>
      Some (st <- r ;;
            Return {| stdout := [ReadCount (length domains); Starting CONCURRENT_LIMIT]
                                ++ map Progress (printed st)
                                ++ [Completed; Scanned (length domains);
                                    Found (length (cf_domains st));
                                    SavedTo OUTPUT_FILE];
                      saved := cf_domains st |})
  | None => None
  end.

(** The domains of the match lines among printed lines, in order. *)
Fixpoint announced (lines : list observation) : list string :=
  match lines with
  | [] => []
  | MatchFound _ _ domain :: rest => domain :: announced rest
  | StillScanning _ _ _ :: rest => announced rest
  end.

(** Headers with the case of every name and of every value folded. *)
Definition fold_case (headers : CIMultiDict.t) : CIMultiDict.t :=
  map (fun kv => (lower (fst kv), lower (snd kv))) headers.

(** A file of three rows: a header-less ranking, a blank line in between. *)
Definition sample_rows : list (list string) :=
  [["1"; "a.test"]; []; ["2"; "c.test"; "extra"]].

(** * Properties *)

(** ** Header lookup *)

Lemma key_eqb_true k name :
  CIMultiDict.key_eqb k name = true <-> lower k = lower name.
Proof. unfold CIMultiDict.key_eqb. apply String.eqb_eq. Qed.

Lemma key_eqb_false k name :
  CIMultiDict.key_eqb k name = false <-> lower k <> lower name.
Proof. unfold CIMultiDict.key_eqb. apply String.eqb_neq. Qed.

Lemma contains_has_header name headers :
  CIMultiDict.contains name headers = true <-> has_header name headers.
Proof.
  unfold CIMultiDict.contains, has_header.
  rewrite existsb_exists. split.
  - intros [[k v] [Hin Hk]]. exists k, v. split; [assumption |].
    now apply key_eqb_true.
  - intros (k & v & Hin & Hk). exists (k, v). split; [assumption |].
    now apply key_eqb_true.
Qed.

Lemma get_first_header name default headers v :
  first_header name headers v -> CIMultiDict.get name default headers = v.
Proof.
  intros (before & k & after & -> & Hk & Hbefore).
  induction before as [| [k0 v0] before IH]; simpl.
  - apply key_eqb_true in Hk. now rewrite Hk.
  - assert (Hk0 : CIMultiDict.key_eqb k0 name = false).
    { apply key_eqb_false. apply (Hbefore k0 v0). now left. }
    rewrite Hk0. apply IH. intros k' v' Hin. apply (Hbefore k' v'). now right.
Qed.

Lemma get_without_header name default headers :
  ~ has_header name headers -> CIMultiDict.get name default headers = default.
Proof.
  induction headers as [| [k v] rest IH]; simpl; intros Hno.
  - reflexivity.
  - destruct (CIMultiDict.key_eqb k name) eqn:Hk.
    + exfalso. apply Hno. exists k, v. split; [now left |].
      now apply key_eqb_true.
    + apply IH. intros (k' & v' & Hin & Hk'). apply Hno.
      exists k', v'. split; [now right | assumption].
Qed.

Lemma first_header_or_none name headers :
  (exists v, first_header name headers v) \/ ~ has_header name headers.
Proof.
  induction headers as [| [k v] rest IH].
  - right. intros (k & v & [] & _).
  - destruct (CIMultiDict.key_eqb k name) eqn:Hk.
    + left. exists v, [], k, rest. repeat split.
      * now apply key_eqb_true.
      * intros k' v' [].
    + apply key_eqb_false in Hk. destruct IH as [[v1 Hfirst] | Hno].
      * left. destruct Hfirst as (before & k1 & after & -> & Hk1 & Hbefore).
        exists v1, ((k, v) :: before), k1, after. repeat split; [assumption |].
        intros k' v' [Heq | Hin].
        -- now inversion Heq; subst.
        -- now apply (Hbefore k' v').
      * right. intros (k' & v' & [Heq | Hin] & Hk').
        -- inversion Heq; subst. now apply Hk.
        -- apply Hno. now exists k', v'.
Qed.

(** The test of [check_cloudflare], read on the headers. *)
Lemma classification_test headers :
  CIMultiDict.contains "cf-ray" headers
  || String.eqb (lower (CIMultiDict.get "server" EmptyString headers)) "cloudflare" = true
  <-> has_header "cf-ray" headers
      \/ exists v, first_header "server" headers v /\ lower v = "cloudflare".
Proof.
  rewrite orb_true_iff, contains_has_header, String.eqb_eq.
  split; (intros [Hray | Hserver]; [now left | right]).
  - destruct (first_header_or_none "server" headers) as [[v Hfirst] | Hno].
    + exists v. split; [assumption |].
      now rewrite (get_first_header _ EmptyString _ _ Hfirst) in Hserver.
    + rewrite (get_without_header _ EmptyString _ Hno) in Hserver. discriminate.
  - destruct Hserver as (v & Hfirst & Hv).
    now rewrite (get_first_header _ EmptyString _ _ Hfirst).
Qed.

(** ** The probe *)

(** C1, as amended: on a response, the probe returns its domain with
    matched = true exactly when the headers hold a header named cf-ray
    (whatever the case of the name) or the FIRST header named server has a
    value that lowered is cloudflare; on every other response it returns
    matched = false. *)
Theorem check_cloudflare_classification session domain headers :
  head session (url_of domain) = Return headers ->
  exists matched,
    check_cloudflare session domain = Return (domain, matched) /\
    (matched = true <->
     has_header "cf-ray" headers
     \/ exists v, first_header "server" headers v /\ lower v = "cloudflare").
Proof.
  intros Hhead. unfold check_cloudflare, check_cloudflare_try.
  rewrite Hhead. cbn [bind].
  pose proof (classification_test headers) as Htest.
  destruct (CIMultiDict.contains "cf-ray" headers
            || String.eqb (lower (CIMultiDict.get "server" EmptyString headers))
                 "cloudflare").
  - exists true. split; [reflexivity | exact Htest].
  - exists false. split; [reflexivity |].
    rewrite <- Htest. reflexivity.
Qed.

Lemma check_cloudflare_classification_witness :
  exists matched,
    check_cloudflare sample_session "a.test" = Return ("a.test", matched) /\
    (matched = true <->
     has_header "cf-ray" [("Server", "Cloudflare")]
     \/ exists v, first_header "server" [("Server", "Cloudflare")] v
                  /\ lower v = "cloudflare").
Proof.
  apply (check_cloudflare_classification sample_session "a.test").
  reflexivity.
Defined.

(** C1, as stated, fails: a response with two Server headers, the second one
    cloudflare, holds a header named server whose value is cloudflare, and
    the probe classifies it negative. *)
Lemma check_cloudflare_second_server_header :
  head sample_session (url_of "two.test")
  = Return [("Server", "nginx"); ("Server", "cloudflare")]
  /\ (has_header "cf-ray" [("Server", "nginx"); ("Server", "cloudflare")]
      \/ has_header_value "server" "cloudflare"
           [("Server", "nginx"); ("Server", "cloudflare")])
  /\ check_cloudflare sample_session "two.test" = Return ("two.test", false).
Proof.
  split; [reflexivity | split; [| reflexivity]].
  right. exists "Server", "cloudflare". repeat split. right. now left.
Qed.



(** What the probe ends in, by what its request ends in. *)
Lemma check_cloudflare_cases session domain :
  match head session (url_of domain) with
  | Return headers =>
      exists matched, check_cloudflare session domain = Return (domain, matched)
  | Raise e =>
      if is_Exception e
      then check_cloudflare session domain = Return (domain, false)
      else check_cloudflare session domain = Raise e
  end.
Proof.
  unfold check_cloudflare, check_cloudflare_try.
  destruct (head session (url_of domain)) as [headers | e]; cbn [bind].
  - destruct (CIMultiDict.contains "cf-ray" headers
              || String.eqb (lower (CIMultiDict.get "server" EmptyString headers))
                   "cloudflare"); cbn; eauto.
  - cbn [try_except_Exception]. destruct (is_Exception e); reflexivity.
Qed.

(** C10: on every path on which the probe returns (a response classified
    positive or negative, or a caught exception) the pair it returns holds the
    input domain, unchanged, as its first component; the probe returns no pair
    only when the request raised an exception that is no instance of
    Exception, which it lets through. *)
Theorem check_cloudflare_keeps_domain session domain :
  (exists matched, check_cloudflare session domain = Return (domain, matched))
  \/ (exists e, head session (url_of domain) = Raise e
                /\ is_Exception e = false
                /\ check_cloudflare session domain = Raise e).
Proof.
  pose proof (check_cloudflare_cases session domain) as Hcases.
  destruct (head session (url_of domain)) as [headers | e].
  - now left.
  - destruct (is_Exception e) eqn:He.
    + left. now exists false.
    + right. now exists e.
Qed.

(** ** Lists *)

Lemma remove_nth_Permutation {A : Type} (l : list A) : forall i x,
  nth_error l i = Some x -> Permutation l (x :: remove_nth i l).
Proof.
  induction l as [| y l IH]; intros [| i] x Hnth; simpl in *; try discriminate.
  - inversion Hnth; subst. apply Permutation_refl.
  - apply Permutation_trans with (y :: x :: remove_nth i l).
    + apply perm_skip. now apply IH.
    + apply perm_swap.
Qed.

Lemma remove_nth_length {A : Type} (l : list A) i x :
  nth_error l i = Some x -> S (length (remove_nth i l)) = length l.
Proof.
  intros Hnth. apply remove_nth_Permutation in Hnth.
  apply Permutation_length in Hnth. simpl in Hnth. now symmetry.
Qed.

Lemma matched_domains_NoDup (pairs : list (string * bool)) :
  NoDup (map fst pairs) -> NoDup (map fst (filter snd pairs)).
Proof.
  induction pairs as [| [domain is_cf] pairs IH]; simpl; intros Hnd.
  - constructor.
  - apply NoDup_cons_iff in Hnd. destruct Hnd as [Hfresh Hnd].
    destruct is_cf; simpl; [| now apply IH].
    apply NoDup_cons; [| now apply IH].
    intros Hin. apply Hfresh.
    apply in_map_iff in Hin. destruct Hin as (q & Hq & Hin).
    apply filter_In in Hin. destruct Hin as [Hin _].
    rewrite <- Hq. now apply in_map.
Qed.

(** ** The aggregation loop *)

Lemma main_loop_returns total pairs : forall st,
  main_loop total st (map Return pairs)
  = Return (fold_left (loop_body total) pairs st).
Proof.
  induction pairs as [| p pairs IH]; intros st; simpl.
  - reflexivity.
  - apply IH.
Qed.

Lemma main_loop_Return_inv total results : forall st st',
  main_loop total st results = Return st' ->
  exists pairs, results = map Return pairs.
Proof.
  induction results as [| [p | e] results IH]; intros st st' Hloop; simpl in Hloop.
  - now exists [].
  - destruct (IH _ _ Hloop) as [pairs ->]. now exists (p :: pairs).
  - discriminate.
Qed.

Lemma loop_body_checked total st p :
  checked (loop_body total st p) = checked st + 1.
Proof.
  destruct p as [domain [|]]; simpl; [reflexivity |].
  destruct ((checked st + 1) mod 100 =? 0); reflexivity.
Qed.

Lemma loop_body_cf_domains total st p :
  cf_domains (loop_body total st p)
  = cf_domains st ++ (if snd p then [fst p] else []).
Proof.
  destruct p as [domain [|]]; simpl; [reflexivity |].
  destruct ((checked st + 1) mod 100 =? 0); simpl; now rewrite app_nil_r.
Qed.

Lemma fold_loop_checked total pairs : forall st,
  checked (fold_left (loop_body total) pairs st) = checked st + length pairs.
Proof.
  induction pairs as [| p pairs IH]; intros st; simpl.
  - lia.
  - rewrite IH, loop_body_checked. lia.
Qed.

Lemma fold_loop_cf_domains total pairs : forall st,
  cf_domains (fold_left (loop_body total) pairs st)
  = cf_domains st ++ map fst (filter snd pairs).
Proof.
  induction pairs as [| p pairs IH]; intros st; simpl.
  - now rewrite app_nil_r.
  - rewrite IH, loop_body_cf_domains.
    destruct (snd p); simpl; now rewrite <- app_assoc.
Qed.

Lemma fold_loop_printed total pairs : forall st,
  printed (fold_left (loop_body total) pairs st)
  = printed st
    ++ spec_observations total (checked st) (length (cf_domains st)) pairs.
Proof.
  induction pairs as [| [domain is_cf] pairs IH]; intros st; simpl.
  - now rewrite app_nil_r.
  - rewrite IH. destruct is_cf; simpl.
    + rewrite length_app, <- app_assoc. reflexivity.
    + destruct ((checked st + 1) mod 100 =? 0); simpl.
      * now rewrite <- app_assoc.
      * reflexivity.
Qed.


Lemma filter_split_length {A : Type} (p : A -> bool) (l : list A) :
  length (filter p l) + length (filter (fun a => negb (p a)) l) = length l.
Proof.
  induction l as [| a l IH]; simpl; [reflexivity |].
  destruct (p a); simpl; lia.
Qed.

(** ** The event loop *)

Section EventLoop.

Variable session : ClientSession.

Lemma step_inv e s s' :
  step session e s = Some s' ->
  (exists i domain,
      e = Acquire i /\ nth_error (waiting s) i = Some domain /\ 0 < semaphore s /\
      s' = {| semaphore := semaphore s - 1;
              waiting := remove_nth i (waiting s);
              in_flight := in_flight s ++ [domain];
              finished := finished s |})
  \/ (exists i domain,
      e = Release i /\ nth_error (in_flight s) i = Some domain /\
      s' = {| semaphore := semaphore s + 1;
              waiting := waiting s;
              in_flight := remove_nth i (in_flight s);
              finished := finished s ++ [check_cloudflare session domain] |}).
Proof.
  destruct e as [i | i]; simpl; intros Hstep.
  - left. destruct (nth_error (waiting s) i) as [domain |] eqn:Hnth; [| discriminate].
    destruct (0 <? semaphore s) eqn:Hsem; [| discriminate].
    apply Nat.ltb_lt in Hsem. inversion Hstep. now exists i, domain.
  - right. destruct (nth_error (in_flight s) i) as [domain |] eqn:Hnth; [| discriminate].
    inversion Hstep. now exists i, domain.
Qed.

Lemma step_gate e s s' :
  step session e s = Some s' ->
  length (in_flight s') + semaphore s' = length (in_flight s) + semaphore s.
Proof.
  intros Hstep. apply step_inv in Hstep.
  destruct Hstep as [(i & d & _ & Hnth & Hsem & ->) | (i & d & _ & Hnth & ->)]; simpl.
  - rewrite length_app. simpl. lia.
  - apply remove_nth_length in Hnth. lia.
Qed.

Lemma step_work_left e s s' :
  step session e s = Some s' -> work_left s = S (work_left s').
Proof.
  intros Hstep. apply step_inv in Hstep. unfold work_left.
  destruct Hstep as [(i & d & _ & Hnth & Hsem & ->) | (i & d & _ & Hnth & ->)]; simpl.
  - apply remove_nth_length in Hnth. rewrite length_app. simpl. lia.
  - apply remove_nth_length in Hnth. lia.
Qed.

Lemma step_results e s s' :
  step session e s = Some s' ->
  Permutation (finished s' ++ map (check_cloudflare session) (waiting s' ++ in_flight s'))
              (finished s ++ map (check_cloudflare session) (waiting s ++ in_flight s)).
Proof.
  intros Hstep. apply step_inv in Hstep.
  destruct Hstep as [(i & d & _ & Hnth & Hsem & ->) | (i & d & _ & Hnth & ->)]; simpl.
  - apply Permutation_app_head, Permutation_map.
    apply remove_nth_Permutation in Hnth.
    rewrite app_assoc. apply Permutation_trans with (d :: remove_nth i (waiting s) ++ in_flight s).
    + apply Permutation_sym, Permutation_cons_append.
    + change (Permutation ((d :: remove_nth i (waiting s)) ++ in_flight s)
                          (waiting s ++ in_flight s)).
      apply Permutation_app_tail. now apply Permutation_sym.
  - rewrite <- app_assoc. apply Permutation_app_head. simpl.
    apply remove_nth_Permutation in Hnth.
    change (Permutation (map (check_cloudflare session) (d :: waiting s ++ remove_nth i (in_flight s)))
                        (map (check_cloudflare session) (waiting s ++ in_flight s))).
    apply Permutation_map.
    apply Permutation_trans with (waiting s ++ d :: remove_nth i (in_flight s)).
    + apply Permutation_middle.
    + apply Permutation_app_head. now apply Permutation_sym.
Qed.

Lemma exec_gate schedule : forall s s',
  exec session schedule s = Some s' ->
  length (in_flight s') + semaphore s' = length (in_flight s) + semaphore s.
Proof.
  induction schedule as [| e schedule IH]; intros s s' Hexec; simpl in Hexec.
  - now inversion Hexec.
  - destruct (step session e s) as [s1 |] eqn:Hstep; [| discriminate].
    rewrite (IH _ _ Hexec). now apply (step_gate e).
Qed.

Lemma exec_work_left schedule : forall s s',
  exec session schedule s = Some s' ->
  work_left s = length schedule + work_left s'.
Proof.
  induction schedule as [| e schedule IH]; intros s s' Hexec; simpl in Hexec.
  - now inversion Hexec.
  - destruct (step session e s) as [s1 |] eqn:Hstep; [| discriminate].
    apply step_work_left in Hstep. apply IH in Hexec. simpl. lia.
Qed.

Lemma exec_results schedule : forall s s',
  exec session schedule s = Some s' ->
  Permutation (finished s' ++ map (check_cloudflare session) (waiting s' ++ in_flight s'))
              (finished s ++ map (check_cloudflare session) (waiting s ++ in_flight s)).
Proof.
  induction schedule as [| e schedule IH]; intros s s' Hexec; simpl in Hexec.
  - inversion Hexec. apply Permutation_refl.
  - destruct (step session e s) as [s1 |] eqn:Hstep; [| discriminate].
    eapply Permutation_trans; [apply IH; exact Hexec | eapply step_results; exact Hstep].
Qed.

Lemma all_done_inv s :
  all_done s = true -> waiting s = [] /\ in_flight s = [].
Proof.
  unfold all_done. destruct (waiting s); [| discriminate].
  destruct (in_flight s); [| discriminate]. now split.
Qed.

(** A run that leaves no task behind has finished one probe per domain. *)
Lemma run_results limit domains schedule s :
  exec session schedule (sched_init limit domains) = Some s ->
  all_done s = true ->
  Permutation (finished s) (map (check_cloudflare session) domains).
Proof.
  intros Hexec Hdone. apply exec_results in Hexec.
  apply all_done_inv in Hdone. destruct Hdone as [Hw Hf].
  rewrite Hw, Hf in Hexec. simpl in Hexec.
  now rewrite !app_nil_r in Hexec.
Qed.

Lemma benign_returns domains :
  benign session domains = true ->
  exists pairs, map (check_cloudflare session) domains = map Return pairs /\ map fst pairs = domains.
Proof.
  unfold benign. induction domains as [| d domains IH]; simpl; intros Hb.
  - now exists [].
  - apply andb_true_iff in Hb. destruct Hb as [Hd Hb].
    destruct (IH Hb) as (pairs & Hmap & Hfst).
    pose proof (check_cloudflare_cases session d) as Hcases.
    destruct (head session (url_of d)) as [headers | e].
    + destruct Hcases as [matched Hprobe].
      exists ((d, matched) :: pairs). simpl. now rewrite Hprobe, Hmap, Hfst.
    + rewrite Hd in Hcases.
      exists ((d, false) :: pairs). simpl. now rewrite Hcases, Hmap, Hfst.
Qed.

(** The results of a benign run, as pairs in completion order. *)
Lemma run_pairs limit domains schedule s :
  benign session domains = true ->
  exec session schedule (sched_init limit domains) = Some s ->
  all_done s = true ->
  exists pairs,
    finished s = map Return pairs /\ Permutation (map fst pairs) domains.
Proof.
  intros Hb Hexec Hdone.
  pose proof (run_results _ _ _ _ Hexec Hdone) as Hperm.
  destruct (benign_returns _ Hb) as (pairs0 & Hmap & Hfst).
  rewrite Hmap in Hperm.
  apply Permutation_map_inv in Hperm. destruct Hperm as (pairs & Hfin & Hpairs).
  exists pairs. split; [assumption |].
  rewrite <- Hfst. apply Permutation_map. now apply Permutation_sym.
Qed.

Lemma dispatch_run limit domains schedule s :
  exec session schedule (sched_init limit domains) = Some s ->
  all_done s = true ->
  dispatch limit session domains schedule
  = Some (main_loop (length domains) loop_init (finished s)).
Proof.
  intros Hexec Hdone. unfold dispatch. now rewrite Hexec, Hdone.
Qed.

Lemma dispatch_inv limit domains schedule r :
  dispatch limit session domains schedule = Some r ->
  exists s,
    exec session schedule (sched_init limit domains) = Some s /\
    all_done s = true /\
    r = main_loop (length domains) loop_init (finished s).
Proof.
  unfold dispatch. intros Hd.
  destruct (exec session schedule (sched_init limit domains)) as [s |]; [| discriminate].
  destruct (all_done s) eqn:Hdone; [| discriminate].
  inversion Hd. now exists s.
Qed.

End EventLoop.

(** ** The dispatcher *)

(** A benign run that leaves no task behind returns the fold of the loop
    body over its results, one per submitted domain. *)
Lemma run_outcome limit session domains schedule s :
  benign session domains = true ->
  exec session schedule (sched_init limit domains) = Some s ->
  all_done s = true ->
  exists pairs,
    finished s = map Return pairs /\
    Permutation (map fst pairs) domains /\
    dispatch limit session domains schedule
    = Some (Return (fold_left (loop_body (length domains)) pairs loop_init)).
Proof.
  intros Hb Hexec Hdone.
  destruct (run_pairs _ _ _ _ _ Hb Hexec Hdone) as (pairs & Hfin & Hperm).
  exists pairs. repeat split; try assumption.
  rewrite (dispatch_run _ _ _ _ _ Hexec Hdone), Hfin.
  now rewrite main_loop_returns.
Qed.

(** C3: a run over N domains that leaves no task behind has observed exactly
    N completion events, one result per submitted domain (the domains of the
    results are the submitted ones, rearranged), the dispatcher returns with
    checked = N, and the length of the result set plus the number of results
    observed negative is N. *)
Theorem dispatch_completeness limit session domains schedule s :
  benign session domains = true ->
  exec session schedule (sched_init limit domains) = Some s ->
  all_done s = true ->
  exists pairs st,
    finished s = map Return pairs /\
    length pairs = length domains /\
    Permutation (map fst pairs) domains /\
    dispatch limit session domains schedule = Some (Return st) /\
    checked st = length domains /\
    length (cf_domains st) + length (filter (fun p => negb (snd p)) pairs)
    = length domains.
Proof.
  intros Hb Hexec Hdone.
  destruct (run_outcome _ _ _ _ _ Hb Hexec Hdone) as (pairs & Hfin & Hperm & Hdisp).
  assert (Hlen : length pairs = length domains).
  { rewrite <- (Permutation_length Hperm). now rewrite length_map. }
  exists pairs, (fold_left (loop_body (length domains)) pairs loop_init).
  repeat split; try assumption.
  - rewrite fold_loop_checked. simpl. exact Hlen.
  - rewrite fold_loop_cf_domains. simpl. rewrite length_map, <- Hlen.
    apply filter_split_length.
Qed.

Lemma dispatch_completeness_witness :
  exists pairs st,
    finished sample_final = map Return pairs /\
    length pairs = length sample_domains /\
    Permutation (map fst pairs) sample_domains /\
    dispatch 2 sample_session sample_domains sample_schedule = Some (Return st) /\
    checked st = length sample_domains /\
    length (cf_domains st) + length (filter (fun p => negb (snd p)) pairs)
    = length sample_domains.
Proof.
  apply (dispatch_completeness 2 sample_session sample_domains sample_schedule
           sample_final); reflexivity.
Defined.

(** C4, as amended: the result set is, in completion order, the domain of
    every result whose matched is true, one entry per such result and no
    other entry; it holds no repeated domain when the submitted domains hold
    none. *)
Theorem dispatch_result_set limit session domains schedule s :
  benign session domains = true ->
  exec session schedule (sched_init limit domains) = Some s ->
  all_done s = true ->
  exists pairs st,
    finished s = map Return pairs /\
    dispatch limit session domains schedule = Some (Return st) /\
    cf_domains st = map fst (filter snd pairs) /\
    (NoDup domains -> NoDup (cf_domains st)).
Proof.
  intros Hb Hexec Hdone.
  destruct (run_outcome _ _ _ _ _ Hb Hexec Hdone) as (pairs & Hfin & Hperm & Hdisp).
  exists pairs, (fold_left (loop_body (length domains)) pairs loop_init).
  repeat split; try assumption.
  - now rewrite fold_loop_cf_domains.
  - intros Hnd. rewrite fold_loop_cf_domains. simpl.
    apply matched_domains_NoDup.
    apply (Permutation_NoDup (Permutation_sym Hperm) Hnd).
Qed.

Lemma dispatch_result_set_witness :
  exists pairs st,
    finished sample_final = map Return pairs /\
    dispatch 2 sample_session sample_domains sample_schedule = Some (Return st) /\
    cf_domains st = map fst (filter snd pairs) /\
    (NoDup sample_domains -> NoDup (cf_domains st)).
Proof.
  apply (dispatch_result_set 2 sample_session sample_domains sample_schedule
           sample_final); reflexivity.
Defined.

(** C4, as stated, fails: a domain submitted twice and matched twice is
    twice in the result set. *)
Lemma dispatch_repeats_repeated_domain :
  dispatch 2 sample_session ["cf.test"; "cf.test"] (in_order_schedule 2)
  = Some (Return {| cf_domains := ["cf.test"; "cf.test"];
                    checked := 2;
                    printed := [MatchFound 1 2 "cf.test"; MatchFound 2 2 "cf.test"] |})
  /\ ~ NoDup ["cf.test"; "cf.test"].
Proof.
  split; [reflexivity |].
  intros Hnd. inversion Hnd as [| ? ? Hnotin _]; subst.
  apply Hnotin. now left.
Qed.



(** C7, as amended: over a run that leaves no task behind, the printed lines
    are, in completion order, one match line for every result that matched,
    one milestone line for every result that did not match and whose ordinal
    is a multiple of 100, and no other line. *)
Theorem dispatch_observations limit session domains schedule s :
  benign session domains = true ->
  exec session schedule (sched_init limit domains) = Some s ->
  all_done s = true ->
  exists pairs st,
    finished s = map Return pairs /\
    dispatch limit session domains schedule = Some (Return st) /\
    printed st = spec_observations (length domains) 0 0 pairs.
Proof.
  intros Hb Hexec Hdone.
  destruct (run_outcome _ _ _ _ _ Hb Hexec Hdone) as (pairs & Hfin & Hperm & Hdisp).
  exists pairs, (fold_left (loop_body (length domains)) pairs loop_init).
  repeat split; try assumption.
  now rewrite fold_loop_printed.
Qed.

Lemma dispatch_observations_witness :
  exists pairs st,
    finished sample_final = map Return pairs /\
    dispatch 2 sample_session sample_domains sample_schedule = Some (Return st) /\
    printed st = spec_observations (length sample_domains) 0 0 pairs.
Proof.
  apply (dispatch_observations 2 sample_session sample_domains sample_schedule
           sample_final); reflexivity.
Defined.

(** C7, as stated, fails: of a hundred completions of which only the last is
    a match, the first ninety-nine print nothing, and the hundredth prints
    its match line and no milestone. *)
Lemma main_hundredth_match_prints_no_milestone :
  main sample_session (repeat "x.test" 99 ++ ["cf.test"]) (in_order_schedule 100)
  = Some (Return {| cf_domains := ["cf.test"];
                    checked := 100;
                    printed := [MatchFound 100 100 "cf.test"] |}).
Proof. vm_compute. reflexivity. Qed.

(** C8: in every state a run reaches, the probes in flight and the free slots
    of the semaphore add up to the limit, so no more than limit probes are in
    flight; a task is admitted only when a slot is free and takes it; a task
    that finishes gives its slot back whatever its probe ended in; and when no
    task is left all the slots are free again. *)
Theorem semaphore_bounds_in_flight limit session domains schedule s :
  exec session schedule (sched_init limit domains) = Some s ->
  length (in_flight s) + semaphore s = limit
  /\ length (in_flight s) <= limit
  /\ (forall i s', step session (Acquire i) s = Some s' ->
                   0 < semaphore s /\ semaphore s' = semaphore s - 1
                   /\ length (in_flight s') = length (in_flight s) + 1)
  /\ (forall i s', step session (Release i) s = Some s' ->
                   semaphore s' = semaphore s + 1
                   /\ length (in_flight s') + 1 = length (in_flight s))
  /\ (all_done s = true -> semaphore s = limit).
Proof.
  intros Hexec. apply exec_gate in Hexec. simpl in Hexec.
  split; [assumption |]. split; [lia |]. split; [| split].
  - intros i s' Hstep. apply step_inv in Hstep.
    destruct Hstep as [(j & d & _ & _ & Hsem & ->) | (j & d & Habs & _)];
      [| discriminate].
    simpl. rewrite length_app. now repeat split.
  - intros i s' Hstep. apply step_inv in Hstep.
    destruct Hstep as [(j & d & Habs & _) | (j & d & _ & Hnth & ->)];
      [discriminate |].
    simpl. apply remove_nth_length in Hnth. split; [reflexivity | lia].
  - intros Hdone. apply all_done_inv in Hdone. destruct Hdone as [_ Hf].
    rewrite Hf in Hexec. simpl in Hexec. assumption.
Qed.

Lemma semaphore_bounds_in_flight_witness :
  length (in_flight sample_midway) + semaphore sample_midway = 2
  /\ length (in_flight sample_midway) <= 2
  /\ (forall i s', step sample_session (Acquire i) sample_midway = Some s' ->
                   0 < semaphore sample_midway
                   /\ semaphore s' = semaphore sample_midway - 1
                   /\ length (in_flight s') = length (in_flight sample_midway) + 1)
  /\ (forall i s', step sample_session (Release i) sample_midway = Some s' ->
                   semaphore s' = semaphore sample_midway + 1
                   /\ length (in_flight s') + 1 = length (in_flight sample_midway))
  /\ (all_done sample_midway = true -> semaphore sample_midway = 2).
Proof.
  apply (semaphore_bounds_in_flight 2 sample_session sample_domains
           [Acquire 0; Acquire 0; Release 1] sample_midway).
  reflexivity.
Defined.

(** ** Degenerate batches and progress *)

Lemma step_no_task session e limit :
  step session e (sched_init limit []) = None.
Proof. destruct e as [[| i] | [| i]]; reflexivity. Qed.

Lemma step_no_slot session e domains :
  step session e (sched_init 0 domains) = None.
Proof.
  destruct e as [i | [| i]]; simpl; [| reflexivity | reflexivity].
  now destruct (nth_error domains i).
Qed.

(** C5, as amended: for an empty domain list, whatever the limit (zero
    included), the dispatcher returns the empty result set at once: the run
    with no event is the only one, nothing is checked and nothing printed.
    With limit zero and a domain to probe no event is ever enabled and the
    dispatcher does not return. *)
Theorem dispatch_degenerate limit session :
  dispatch limit session [] [] = Some (Return loop_init)
  /\ cf_domains loop_init = []
  /\ (forall schedule r,
        dispatch limit session [] schedule = Some r ->
        schedule = [] /\ r = Return loop_init)
  /\ (forall domain domains e,
        step session e (sched_init 0 (domain :: domains)) = None)
  /\ (forall domain domains schedule,
        dispatch 0 session (domain :: domains) schedule = None).
Proof.
  split; [reflexivity |]. split; [reflexivity |]. split; [| split].
  - intros [| e schedule] r Hd.
    + split; [reflexivity |]. now inversion Hd.
    + unfold dispatch in Hd. simpl in Hd.
      now rewrite step_no_task in Hd.
  - intros domain domains e. apply step_no_slot.
  - intros domain domains [| e schedule]; unfold dispatch; simpl.
    + reflexivity.
    + now rewrite (step_no_slot session e (domain :: domains)).
Qed.

(** C5, as stated, fails: with limit zero and one domain to probe, no
    schedule makes the dispatcher return. *)
Lemma dispatch_zero_limit_never_returns :
  ~ exists schedule r, dispatch 0 sample_session ["a.test"] schedule = Some r.
Proof.
  intros (schedule & r & Hd).
  destruct schedule as [| e schedule]; unfold dispatch in Hd; simpl in Hd.
  - discriminate.
  - now rewrite (step_no_slot sample_session e ["a.test"]) in Hd.
Qed.

(** X1: with a positive limit the event loop cannot get stuck and cannot run for
    ever: while a task is left some event is enabled, a run over N domains
    has at most 2N events, and it has 2N exactly when no task is left. *)
Theorem event_loop_progress limit session domains schedule s :
  0 < limit ->
  exec session schedule (sched_init limit domains) = Some s ->
  length schedule <= 2 * length domains
  /\ (all_done s = true -> length schedule = 2 * length domains)
  /\ (all_done s = false -> exists e s', step session e s = Some s').
Proof.
  intros Hlimit Hexec.
  pose proof (exec_work_left _ _ _ _ Hexec) as Hwork.
  pose proof (exec_gate _ _ _ _ Hexec) as Hgate.
  unfold work_left in Hwork. simpl in Hwork, Hgate.
  split; [lia |]. split.
  - intros Hdone. apply all_done_inv in Hdone. destruct Hdone as [Hw Hf].
    rewrite Hw, Hf in Hwork. simpl in Hwork. lia.
  - intros Hleft. unfold all_done in Hleft.
    destruct (in_flight s) as [| d rest] eqn:Hf.
    + destruct (waiting s) as [| d rest] eqn:Hw; [discriminate |].
      exists (Acquire 0). simpl. rewrite Hw. simpl.
      simpl in Hgate.
      destruct (0 <? semaphore s) eqn:Hsem; [eauto |].
      apply Nat.ltb_ge in Hsem. lia.
    + exists (Release 0). simpl. rewrite Hf. simpl. eauto.
Qed.

Lemma event_loop_progress_witness :
  length [Acquire 0; Acquire 0; Release 1] <= 2 * length sample_domains
  /\ (all_done sample_midway = true ->
      length [Acquire 0; Acquire 0; Release 1] = 2 * length sample_domains)
  /\ (all_done sample_midway = false ->
      exists e s', step sample_session e sample_midway = Some s').
Proof.
  apply (event_loop_progress 2 sample_session sample_domains
           [Acquire 0; Acquire 0; Release 1] sample_midway).
  - lia.
  - reflexivity.
Defined.

(** ** The scenario of three domains *)

Lemma filter_Permutation {A : Type} (keep : A -> bool) (l l' : list A) :
  Permutation l l' -> Permutation (filter keep l) (filter keep l').
Proof.
  intros Hperm. induction Hperm as [| x l l' _ IH | x y l | l l' l'' _ IH1 _ IH2];
    simpl.
  - apply Permutation_refl.
  - destruct (keep x); [now apply perm_skip | assumption].
  - destruct (keep x), (keep y); try apply Permutation_refl. apply perm_swap.
  - now apply Permutation_trans with (filter keep l').
Qed.

(** X2: a.test answers Server: cloudflare (in any case), b.test times out,
    c.test answers Server: nginx: whatever the limit and the order in which
    the three probes complete, the result set is a.test alone and three
    completions are counted. *)
Theorem three_domains_scenario limit schedule s :
  exec sample_session schedule (sched_init limit sample_domains) = Some s ->
  all_done s = true ->
  exists st,
    dispatch limit sample_session sample_domains schedule = Some (Return st)
    /\ cf_domains st = ["a.test"]
    /\ checked st = 3.
Proof.
  intros Hexec Hdone.
  pose proof (run_results _ _ _ _ _ Hexec Hdone) as Hperm.
  change (map (check_cloudflare sample_session) sample_domains)
    with (map (@Return (string * bool))
              [("a.test", true); ("b.test", false); ("c.test", false)]) in Hperm.
  apply Permutation_map_inv in Hperm. destruct Hperm as (pairs & Hfin & Hpairs).
  exists (fold_left (loop_body (length sample_domains)) pairs loop_init).
  split; [| split].
  - rewrite (dispatch_run _ _ _ _ _ Hexec Hdone), Hfin.
    now rewrite main_loop_returns.
  - rewrite fold_loop_cf_domains. simpl.
    apply (filter_Permutation snd) in Hpairs. simpl in Hpairs.
    apply Permutation_length_1_inv in Hpairs. now rewrite Hpairs.
  - rewrite fold_loop_checked. simpl.
    now rewrite <- (Permutation_length Hpairs).
Qed.

Lemma three_domains_scenario_witness :
  exists st,
    dispatch 2 sample_session sample_domains sample_schedule = Some (Return st)
    /\ cf_domains st = ["a.test"]
    /\ checked st = 3.
Proof.
  apply (three_domains_scenario 2 sample_schedule sample_final); reflexivity.
Defined.


(** ** Reading the domains *)

#[local] Opaque MAX_DOMAINS.

Lemma read_rows_spec rows : forall i domains,
  read_rows i rows domains
  = domains ++ flat_map second_field (firstn (MAX_DOMAINS - i) rows).
Proof.
  induction rows as [| row rest IH]; intros i domains.
  - rewrite firstn_nil. simpl. now rewrite app_nil_r.
  - cbn [read_rows]. destruct (Nat.leb_spec MAX_DOMAINS i) as [Hle | Hlt].
    + replace (MAX_DOMAINS - i) with 0 by lia. simpl. now rewrite app_nil_r.
    + replace (MAX_DOMAINS - i) with (S (MAX_DOMAINS - S i)) by lia.
      cbn [firstn flat_map]. rewrite !IH.
      destruct row as [| rank [| domain fields]]; simpl;
        rewrite <- ?app_assoc; reflexivity.
Qed.

Lemma second_fields_length rows :
  length (flat_map second_field rows) <= length rows.
Proof.
  induction rows as [| row rest IH]; simpl; [lia |].
  rewrite length_app.
  destruct row as [| rank [| domain fields]]; simpl; lia.
Qed.

(** X3: the domains read are the second fields, in file order, of those of
    the first MAX_DOMAINS rows that have at least two fields; rows with fewer
    fields give nothing and further fields are ignored. So at most
    MAX_DOMAINS domains are read, and no more than there are rows. *)
Theorem read_domains_second_fields rows :
  read_domains rows = flat_map second_field (firstn MAX_DOMAINS rows)
  /\ length (read_domains rows) <= MAX_DOMAINS
  /\ length (read_domains rows) <= length rows.
Proof.
  assert (Heq : read_domains rows
                = flat_map second_field (firstn MAX_DOMAINS rows)).
  { unfold read_domains. rewrite read_rows_spec, Nat.sub_0_r. reflexivity. }
  rewrite Heq. split; [reflexivity |].
  pose proof (second_fields_length (firstn MAX_DOMAINS rows)) as Hlen.
  pose proof (firstn_le_length MAX_DOMAINS rows) as Hrows.
  rewrite length_firstn in Hlen. split; lia.
Qed.

(** X4: the budget of MAX_DOMAINS counts rows, not domains: once the file
    has MAX_DOMAINS rows, whatever they hold, no later row is read. *)
Theorem read_domains_ignores_later_rows rows more :
  MAX_DOMAINS <= length rows ->
  read_domains (rows ++ more) = read_domains rows.
Proof.
  intros Hfull. unfold read_domains.
  rewrite !read_rows_spec, Nat.sub_0_r.
  rewrite firstn_app.
  replace (MAX_DOMAINS - length rows) with 0 by lia.
  simpl. now rewrite app_nil_r.
Qed.

Lemma read_domains_ignores_later_rows_witness :
  read_domains (repeat [] MAX_DOMAINS ++ [["10001"; "late.test"]])
  = read_domains (repeat [] MAX_DOMAINS).
Proof.
  apply (read_domains_ignores_later_rows (repeat [] MAX_DOMAINS)
           [["10001"; "late.test"]]).
  rewrite repeat_length. apply le_n.
Defined.

(** ** More on the probe *)

(** X5: the probe raises exactly when its request raised an exception that
    is no instance of Exception, and it raises that same exception; every
    other end of the request, an invalid URL or a redirect loop included,
    gives a returned pair. *)
Theorem check_cloudflare_raises_iff session domain e :
  check_cloudflare session domain = Raise e
  <-> head session (url_of domain) = Raise e /\ is_Exception e = false.
Proof.
  pose proof (check_cloudflare_cases session domain) as Hcases.
  destruct (head session (url_of domain)) as [headers | e0].
  - destruct Hcases as [matched Hret]. rewrite Hret.
    split; [discriminate | intros [Habs _]; discriminate].
  - destruct (is_Exception e0) eqn:He0; rewrite Hcases.
    + split; [discriminate |].
      intros [Heq He]. inversion Heq; subst. congruence.
    + split.
      * intros Heq. inversion Heq; subst. now split.
      * intros [Heq _]. now inversion Heq.
Qed.

Lemma fold_case_contains name : forall h1 h2,
  fold_case h1 = fold_case h2 ->
  CIMultiDict.contains name h1 = CIMultiDict.contains name h2.
Proof.
  induction h1 as [| [k1 v1] h1 IH]; intros [| [k2 v2] h2] Heq;
    try discriminate; [reflexivity |].
  simpl in Heq. inversion Heq as [[Hk Hv Hrest]].
  unfold CIMultiDict.contains in *. simpl.
  unfold CIMultiDict.key_eqb at 1 3. rewrite Hk.
  f_equal. now apply IH.
Qed.

Lemma fold_case_get name default : forall h1 h2,
  fold_case h1 = fold_case h2 ->
  lower (CIMultiDict.get name default h1) = lower (CIMultiDict.get name default h2).
Proof.
  induction h1 as [| [k1 v1] h1 IH]; intros [| [k2 v2] h2] Heq;
    try discriminate; [reflexivity |].
  simpl in Heq. inversion Heq as [[Hk Hv Hrest]].
  simpl. unfold CIMultiDict.key_eqb. rewrite Hk.
  destruct (String.eqb (lower k2) (lower name)); [assumption | now apply IH].
Qed.

(** X6: the verdict does not depend on the case of header names or of
    header values: two responses whose headers agree once every name and
    every value is lowered are classified alike. *)
Theorem check_cloudflare_case_insensitive session1 session2 domain h1 h2 :
  head session1 (url_of domain) = Return h1 ->
  head session2 (url_of domain) = Return h2 ->
  fold_case h1 = fold_case h2 ->
  check_cloudflare session1 domain = check_cloudflare session2 domain.
Proof.
  intros H1 H2 Hfold. unfold check_cloudflare, check_cloudflare_try.
  rewrite H1, H2. cbn [bind].
  rewrite (fold_case_contains "cf-ray" _ _ Hfold).
  now rewrite (fold_case_get "server" EmptyString _ _ Hfold).
Qed.

Lemma check_cloudflare_case_insensitive_witness :
  check_cloudflare sample_session "a.test"
  = check_cloudflare {| head := fun _ => Return [("SERVER", "cloudFLARE")] |} "a.test".
Proof.
  apply (check_cloudflare_case_insensitive
           sample_session {| head := fun _ => Return [("SERVER", "cloudFLARE")] |}
           "a.test" [("Server", "Cloudflare")] [("SERVER", "cloudFLARE")]);
    reflexivity.
Defined.

(** ** More on the event loop *)

Lemma exec_app session schedule1 schedule2 : forall s,
  exec session (schedule1 ++ schedule2) s
  = match exec session schedule1 s with
    | Some s' => exec session schedule2 s'
    | None => None
    end.
Proof.
  induction schedule1 as [| e schedule1 IH]; intros s; simpl.
  - reflexivity.
  - destruct (step session e s) as [s1 |]; [apply IH | reflexivity].
Qed.

Lemma enabled_event session limit s :
  0 < limit ->
  length (in_flight s) + semaphore s = limit ->
  all_done s = false ->
  exists e s', step session e s = Some s'.
Proof.
  intros Hlimit Hgate Hleft. unfold all_done in Hleft.
  destruct (in_flight s) as [| d rest] eqn:Hf.
  - destruct (waiting s) as [| d rest] eqn:Hw; [discriminate |].
    exists (Acquire 0). simpl. rewrite Hw. simpl. simpl in Hgate.
    destruct (0 <? semaphore s) eqn:Hsem; [eauto |].
    apply Nat.ltb_ge in Hsem. lia.
  - exists (Release 0). simpl. rewrite Hf. simpl. eauto.
Qed.

Lemma completes_from session limit : forall n s,
  0 < limit ->
  work_left s = n ->
  length (in_flight s) + semaphore s = limit ->
  exists rest s', exec session rest s = Some s' /\ all_done s' = true.
Proof.
  induction n as [| n IH]; intros s Hlimit Hwork Hgate.
  - exists [], s. split; [reflexivity |].
    unfold work_left in Hwork. unfold all_done.
    destruct (waiting s); [| simpl in Hwork; lia].
    destruct (in_flight s); [reflexivity | simpl in Hwork; lia].
  - destruct (all_done s) eqn:Hdone.
    + now exists [], s.
    + destruct (enabled_event session limit s Hlimit Hgate Hdone) as (e & s1 & Hstep).
      pose proof (step_work_left _ _ _ _ Hstep) as Hless.
      pose proof (step_gate _ _ _ _ Hstep) as Hgate1.
      destruct (IH s1 Hlimit) as (rest & s' & Hexec & Hdone'); [lia | lia |].
      exists (e :: rest), s'. simpl. rewrite Hstep. now split.
Qed.

(** X7: with a positive limit every run of the event loop, however far it
    has got, can be carried on to a run that leaves no task behind, which
    then has 2N events and makes the dispatcher end. *)
Theorem event_loop_completes limit session domains schedule s :
  0 < limit ->
  exec session schedule (sched_init limit domains) = Some s ->
  exists rest s',
    exec session (schedule ++ rest) (sched_init limit domains) = Some s'
    /\ all_done s' = true
    /\ length (schedule ++ rest) = 2 * length domains
    /\ exists r, dispatch limit session domains (schedule ++ rest) = Some r.
Proof.
  intros Hlimit Hexec.
  pose proof (exec_gate _ _ _ _ Hexec) as Hgate. simpl in Hgate.
  destruct (completes_from session limit (work_left s) s Hlimit eq_refl Hgate)
    as (rest & s' & Hrest & Hdone).
  assert (Hall : exec session (schedule ++ rest) (sched_init limit domains) = Some s').
  { now rewrite exec_app, Hexec. }
  exists rest, s'. repeat split; try assumption.
  - pose proof (exec_work_left _ _ _ _ Hall) as Hwork.
    apply all_done_inv in Hdone. destruct Hdone as [Hw Hf].
    unfold work_left in Hwork. rewrite Hw, Hf in Hwork. simpl in Hwork. lia.
  - eexists. exact (dispatch_run _ _ _ _ _ Hall Hdone).
Qed.

Lemma event_loop_completes_witness :
  exists rest s',
    exec sample_session ([Acquire 0; Acquire 0; Release 1] ++ rest)
      (sched_init 2 sample_domains) = Some s'
    /\ all_done s' = true
    /\ length ([Acquire 0; Acquire 0; Release 1] ++ rest) = 2 * length sample_domains
    /\ exists r,
         dispatch 2 sample_session sample_domains
           ([Acquire 0; Acquire 0; Release 1] ++ rest) = Some r.
Proof.
  apply (event_loop_completes 2 sample_session sample_domains
           [Acquire 0; Acquire 0; Release 1] sample_midway).
  - lia.
  - reflexivity.
Defined.

(** X8: no task is lost or doubled while the batch runs: in every state a
    run reaches, the tasks waiting, in flight and finished are N together,
    and the results finished so far with the probes of the tasks still to
    finish are the probes of the submitted domains, rearranged. *)
Theorem tasks_conserved limit session domains schedule s :
  exec session schedule (sched_init limit domains) = Some s ->
  length (waiting s) + length (in_flight s) + length (finished s) = length domains
  /\ Permutation
       (finished s ++ map (check_cloudflare session) (waiting s ++ in_flight s))
       (map (check_cloudflare session) domains).
Proof.
  intros Hexec. apply exec_results in Hexec. simpl in Hexec.
  rewrite app_nil_r in Hexec. split; [| assumption].
  apply Permutation_length in Hexec.
  rewrite length_app, !length_map, length_app in Hexec. lia.
Qed.

Lemma tasks_conserved_witness :
  length (waiting sample_midway) + length (in_flight sample_midway)
  + length (finished sample_midway) = length sample_domains
  /\ Permutation
       (finished sample_midway
        ++ map (check_cloudflare sample_session)
             (waiting sample_midway ++ in_flight sample_midway))
       (map (check_cloudflare sample_session) sample_domains).
Proof.
  apply (tasks_conserved 2 sample_session sample_domains
           [Acquire 0; Acquire 0; Release 1] sample_midway).
  reflexivity.
Defined.

(** ** More on the dispatcher *)

Lemma map_Return_inj {A : Type} (l1 : list A) : forall l2,
  map Return l1 = map Return l2 -> l1 = l2.
Proof.
  induction l1 as [| a l1 IH]; intros [| b l2] Heq; try discriminate.
  - reflexivity.
  - simpl in Heq. inversion Heq. f_equal. now apply IH.
Qed.

Lemma main_loop_Raise_inv total results : forall st e,
  main_loop total st results = Raise e -> In (Raise e) results.
Proof.
  induction results as [| [p | e0] results IH]; intros st e Hloop; simpl in Hloop.
  - discriminate.
  - right. now apply (IH _ _ Hloop).
  - left. now inversion Hloop.
Qed.

Lemma probe_Return_inv session domain p :
  check_cloudflare session domain = Return p ->
  fst p = domain
  /\ match head session (url_of domain) with
     | Return _ => true
     | Raise e => is_Exception e
     end = true.
Proof.
  intros Hret. pose proof (check_cloudflare_cases session domain) as Hcases.
  destruct (head session (url_of domain)) as [headers | e].
  - destruct Hcases as [matched Hm]. rewrite Hm in Hret.
    inversion Hret. now split.
  - destruct (is_Exception e); rewrite Hcases in Hret; [| discriminate].
    inversion Hret. now split.
Qed.

Lemma probe_Raise_inv session domain e :
  check_cloudflare session domain = Raise e ->
  head session (url_of domain) = Raise e /\ is_Exception e = false.
Proof.
  intros Hraise. pose proof (check_cloudflare_cases session domain) as Hcases.
  destruct (head session (url_of domain)) as [headers | e0].
  - destruct Hcases as [matched Hm]. rewrite Hm in Hraise. discriminate.
  - destruct (is_Exception e0) eqn:He0; rewrite Hcases in Hraise; [discriminate |].
    inversion Hraise; subst. now split.
Qed.

(** The pairs of a benign run that leaves no task behind are the probes of
    the submitted domains, rearranged. *)
Lemma run_probes limit session domains schedule s :
  benign session domains = true ->
  exec session schedule (sched_init limit domains) = Some s ->
  all_done s = true ->
  exists pairs,
    finished s = map Return pairs /\
    Permutation (map Return pairs) (map (check_cloudflare session) domains) /\
    dispatch limit session domains schedule
    = Some (Return (fold_left (loop_body (length domains)) pairs loop_init)).
Proof.
  intros Hb Hexec Hdone.
  destruct (run_outcome _ _ _ _ _ Hb Hexec Hdone) as (pairs & Hfin & _ & Hdisp).
  exists pairs. repeat split; try assumption.
  rewrite <- Hfin. exact (run_results _ _ _ _ _ Hexec Hdone).
Qed.

(** X9: over a run that leaves no task behind, the dispatcher returns its
    result exactly when no request of the batch raised an exception that is no
    instance of Exception; when one did, the dispatcher raises such an
    exception, raised by the request of a submitted domain, instead of
    returning a result. *)
Theorem dispatch_returns_iff_benign limit session domains schedule s :
  exec session schedule (sched_init limit domains) = Some s ->
  all_done s = true ->
  ((exists st, dispatch limit session domains schedule = Some (Return st))
   <-> benign session domains = true)
  /\ (benign session domains = false ->
      exists e domain,
        dispatch limit session domains schedule = Some (Raise e)
        /\ is_Exception e = false
        /\ In domain domains
        /\ head session (url_of domain) = Raise e).
Proof.
  intros Hexec Hdone.
  pose proof (dispatch_run _ _ _ _ _ Hexec Hdone) as Hdisp.
  pose proof (run_results _ _ _ _ _ Hexec Hdone) as Hperm.
  assert (Hiff : (exists st, dispatch limit session domains schedule = Some (Return st))
                 <-> benign session domains = true).
  { split.
    - intros [st Hst]. rewrite Hdisp in Hst. inversion Hst as [Hloop].
      destruct (main_loop_Return_inv _ _ _ _ Hloop) as [pairs Hfin].
      unfold benign. apply forallb_forall. intros d Hd.
      assert (Hin : In (check_cloudflare session d) (finished s)).
      { apply (Permutation_in _ (Permutation_sym Hperm)). now apply in_map. }
      rewrite Hfin in Hin. apply in_map_iff in Hin. destruct Hin as (p & Hp & _).
      symmetry in Hp. now apply probe_Return_inv in Hp.
    - intros Hb.
      destruct (run_outcome _ _ _ _ _ Hb Hexec Hdone) as (pairs & _ & _ & Hret).
      eauto. }
  split; [exact Hiff |].
  intros Hnot.
  destruct (main_loop (length domains) loop_init (finished s)) as [st | e] eqn:Hloop.
  - assert (Hb : benign session domains = true) by (apply Hiff; eauto).
    congruence.
  - apply main_loop_Raise_inv in Hloop.
    apply (Permutation_in _ Hperm) in Hloop.
    apply in_map_iff in Hloop. destruct Hloop as (d & Hd & Hin).
    apply probe_Raise_inv in Hd. destruct Hd as [Hhead He].
    now exists e, d.
Qed.

Lemma dispatch_returns_iff_benign_witness :
  ((exists st, dispatch 2 sample_session ["stop.test"; "a.test"]
                 (in_order_schedule 2) = Some (Return st))
   <-> benign sample_session ["stop.test"; "a.test"] = true)
  /\ (benign sample_session ["stop.test"; "a.test"] = false ->
      exists e domain,
        dispatch 2 sample_session ["stop.test"; "a.test"] (in_order_schedule 2)
        = Some (Raise e)
        /\ is_Exception e = false
        /\ In domain ["stop.test"; "a.test"]
        /\ head sample_session (url_of domain) = Raise e).
Proof.
  apply (dispatch_returns_iff_benign 2 sample_session ["stop.test"; "a.test"]
           (in_order_schedule 2)
           {| semaphore := 2; waiting := []; in_flight := [];
              finished := [Raise CancelledError; Return ("a.test", true)] |});
    reflexivity.
Defined.

(** X10: the result does not depend on the schedule beyond its order: two
    runs over the same domains that leave no task behind, whatever their
    limits and the order in which their probes finish, return result sets
    that are rearrangements of each other, and the same count. *)
Theorem dispatch_order_independent
  limit1 limit2 session domains schedule1 schedule2 s1 s2 :
  benign session domains = true ->
  exec session schedule1 (sched_init limit1 domains) = Some s1 ->
  all_done s1 = true ->
  exec session schedule2 (sched_init limit2 domains) = Some s2 ->
  all_done s2 = true ->
  exists st1 st2,
    dispatch limit1 session domains schedule1 = Some (Return st1)
    /\ dispatch limit2 session domains schedule2 = Some (Return st2)
    /\ Permutation (cf_domains st1) (cf_domains st2)
    /\ checked st1 = checked st2.
Proof.
  intros Hb Hexec1 Hdone1 Hexec2 Hdone2.
  destruct (run_probes _ _ _ _ _ Hb Hexec1 Hdone1) as (pairs1 & _ & Hperm1 & Hd1).
  destruct (run_probes _ _ _ _ _ Hb Hexec2 Hdone2) as (pairs2 & _ & Hperm2 & Hd2).
  assert (Hpairs : Permutation pairs1 pairs2).
  { pose proof (Permutation_trans Hperm1 (Permutation_sym Hperm2)) as Hperm.
    apply Permutation_map_inv in Hperm. destruct Hperm as (l & Heq & Hl).
    apply map_Return_inj in Heq. subst l. now apply Permutation_sym. }
  exists (fold_left (loop_body (length domains)) pairs1 loop_init),
         (fold_left (loop_body (length domains)) pairs2 loop_init).
  repeat split; try assumption.
  - rewrite !fold_loop_cf_domains. simpl.
    apply Permutation_map. now apply filter_Permutation.
  - rewrite !fold_loop_checked. simpl. now apply Permutation_length.
Qed.

Lemma dispatch_order_independent_witness :
  exists st1 st2,
    dispatch 2 sample_session sample_domains sample_schedule = Some (Return st1)
    /\ dispatch 3 sample_session sample_domains (in_order_schedule 3)
       = Some (Return st2)
    /\ Permutation (cf_domains st1) (cf_domains st2)
    /\ checked st1 = checked st2.
Proof.
  apply (dispatch_order_independent 2 3 sample_session sample_domains
           sample_schedule (in_order_schedule 3) sample_final
           {| semaphore := 3; waiting := []; in_flight := [];
              finished := [Return ("a.test", true); Return ("b.test", false);
                           Return ("c.test", false)] |});
    reflexivity.
Defined.

(** X11: a domain is in the result set exactly when it was submitted and its
    probe returned it as a match. *)
Theorem dispatch_result_membership limit session domains schedule s :
  benign session domains = true ->
  exec session schedule (sched_init limit domains) = Some s ->
  all_done s = true ->
  exists st,
    dispatch limit session domains schedule = Some (Return st)
    /\ forall domain,
         In domain (cf_domains st)
         <-> In domain domains
             /\ check_cloudflare session domain = Return (domain, true).
Proof.
  intros Hb Hexec Hdone.
  destruct (run_probes _ _ _ _ _ Hb Hexec Hdone) as (pairs & _ & Hperm & Hdisp).
  exists (fold_left (loop_body (length domains)) pairs loop_init).
  split; [assumption |].
  intros domain. rewrite fold_loop_cf_domains. simpl. split.
  - intros Hin. apply in_map_iff in Hin. destruct Hin as ([d b] & Hfst & Hin).
    apply filter_In in Hin. destruct Hin as [Hin Hb']. simpl in Hfst, Hb'. subst d b.
    assert (Hres : In (Return (domain, true)) (map (check_cloudflare session) domains)).
    { apply (Permutation_in _ Hperm). now apply in_map. }
    apply in_map_iff in Hres. destruct Hres as (d & Hd & Hdin).
    pose proof (probe_Return_inv _ _ _ Hd) as [Hfst _]. simpl in Hfst. subst d.
    now split.
  - intros [Hin Hprobe].
    assert (Hres : In (Return (domain, true)) (map Return pairs)).
    { apply (Permutation_in _ (Permutation_sym Hperm)).
      rewrite <- Hprobe. now apply in_map. }
    apply in_map_iff in Hres. destruct Hres as (p & Hp & Hpin).
    inversion Hp; subst p.
    apply in_map_iff. exists (domain, true). split; [reflexivity |].
    apply filter_In. now split.
Qed.

Lemma dispatch_result_membership_witness :
  exists st,
    dispatch 2 sample_session sample_domains sample_schedule = Some (Return st)
    /\ forall domain,
         In domain (cf_domains st)
         <-> In domain sample_domains
             /\ check_cloudflare sample_session domain = Return (domain, true).
Proof.
  apply (dispatch_result_membership 2 sample_session sample_domains
           sample_schedule sample_final); reflexivity.
Defined.

(** ** The printed lines *)

Lemma announced_app l1 l2 :
  announced (l1 ++ l2) = announced l1 ++ announced l2.
Proof.
  induction l1 as [| [k t d | k t f] l1 IH]; simpl; [reflexivity | |].
  - now rewrite IH.
  - exact IH.
Qed.

Lemma spec_observations_announced total pairs : forall k found,
  announced (spec_observations total k found pairs) = map fst (filter snd pairs).
Proof.
  induction pairs as [| [domain [|]] pairs IH]; intros k found; simpl.
  - reflexivity.
  - now rewrite IH.
  - rewrite announced_app, IH.
    now destruct ((k + 1) mod 100 =? 0).
Qed.

Lemma spec_observations_length total pairs : forall k found,
  length (spec_observations total k found pairs) <= length pairs.
Proof.
  induction pairs as [| [domain [|]] pairs IH]; intros k found; simpl.
  - lia.
  - specialize (IH (k + 1) (found + 1)). lia.
  - rewrite length_app. specialize (IH (k + 1) found).
    destruct ((k + 1) mod 100 =? 0); simpl; lia.
Qed.

Lemma spec_observations_milestone total pairs :
  forall k found before k' total' found' after,
    spec_observations total k found pairs
    = before ++ StillScanning k' total' found' :: after ->
    k' mod 100 = 0
    /\ total' = total
    /\ found' = found + length (announced before)
    /\ k < k' <= k + length pairs.
Proof.
  induction pairs as [| [domain [|]] pairs IH];
    intros k found before k' total' found' after Heq; simpl in Heq.
  - now destruct before.
  - destruct before as [| o before]; [discriminate |].
    inversion Heq as [[Ho Hrest]].
    destruct (IH _ _ _ _ _ _ _ Hrest) as (Hmod & Htot & Hfound & Hk).
    simpl. repeat split; try assumption; lia.
  - destruct ((k + 1) mod 100 =? 0) eqn:Hmile; simpl in Heq.
    + destruct before as [| o before].
      * inversion Heq; subst. apply Nat.eqb_eq in Hmile.
        simpl. repeat split; try assumption; lia.
      * inversion Heq as [[Ho Hrest]].
        destruct (IH _ _ _ _ _ _ _ Hrest) as (Hmod & Htot & Hfound & Hk).
        simpl. repeat split; try assumption; lia.
    + destruct (IH _ _ _ _ _ _ _ Heq) as (Hmod & Htot & Hfound & Hk).
      simpl. repeat split; try assumption; lia.
Qed.

(** X12: what is printed agrees with what is returned: the domains of the
    match lines, in order, are the result set; at most one line is printed
    per completion; and every milestone line comes at a multiple of 100
    among the N completions, carries N as the total and, as the number found,
    the number of match lines printed before it. *)
Theorem printed_lines_agree limit session domains schedule s :
  benign session domains = true ->
  exec session schedule (sched_init limit domains) = Some s ->
  all_done s = true ->
  exists st,
    dispatch limit session domains schedule = Some (Return st)
    /\ announced (printed st) = cf_domains st
    /\ length (printed st) <= length domains
    /\ forall before k total found after,
         printed st = before ++ StillScanning k total found :: after ->
         k mod 100 = 0
         /\ total = length domains
         /\ found = length (announced before)
         /\ 0 < k <= length domains.
Proof.
  intros Hb Hexec Hdone.
  destruct (run_outcome _ _ _ _ _ Hb Hexec Hdone) as (pairs & _ & Hperm & Hdisp).
  assert (Hlen : length pairs = length domains).
  { rewrite <- (Permutation_length Hperm). now rewrite length_map. }
  exists (fold_left (loop_body (length domains)) pairs loop_init).
  split; [assumption |].
  rewrite fold_loop_printed, fold_loop_cf_domains. simpl.
  split; [apply spec_observations_announced |].
  split; [rewrite <- Hlen; apply spec_observations_length |].
  intros before k total found after Heq.
  apply spec_observations_milestone in Heq.
  destruct Heq as (Hmod & Htot & Hfound & Hk).
  repeat split; try assumption; lia.
Qed.

Lemma printed_lines_agree_witness :
  exists st,
    dispatch 2 sample_session sample_domains sample_schedule = Some (Return st)
    /\ announced (printed st) = cf_domains st
    /\ length (printed st) <= length sample_domains
    /\ forall before k total found after,
         printed st = before ++ StillScanning k total found :: after ->
         k mod 100 = 0
         /\ total = length sample_domains
         /\ found = length (announced before)
         /\ 0 < k <= length sample_domains.
Proof.
  apply (printed_lines_agree 2 sample_session sample_domains sample_schedule
           sample_final); reflexivity.
Defined.

(** ** From the rows to the saved list *)

Lemma second_field_nth_error row domain :
  In domain (second_field row) <-> nth_error row 1 = Some domain.
Proof.
  destruct row as [| rank [| d fields]]; simpl.
  - split; [intros [] | discriminate].
  - split; [intros [] | discriminate].
  - split.
    + intros [Heq | []]. now subst.
    + intros Heq. inversion Heq. now left.
Qed.

(** X13: from the input rows to the output: when the batch runs to its end
    with no exception other than instances of Exception, main returns after
    saving exactly the domains that are the second field of one of the first
    MAX_DOMAINS rows and that their probe returned as a match, at most
    MAX_DOMAINS of them; what it prints starts with the number of domains
    read and ends with that number, the length of the saved list and the
    output file, and the match lines in between name the saved domains in
    the saved order. *)
Theorem main_io_saves_matches rows session schedule s :
  benign session (read_domains rows) = true ->
  exec session schedule (sched_init CONCURRENT_LIMIT (read_domains rows)) = Some s ->
  all_done s = true ->
  exists out progress,
    main_io rows session schedule = Some (Return out)
    /\ (forall domain,
          In domain (saved out)
          <-> (exists row, In row (firstn MAX_DOMAINS rows)
                           /\ nth_error row 1 = Some domain)
              /\ check_cloudflare session domain = Return (domain, true))
    /\ length (saved out) <= MAX_DOMAINS
    /\ stdout out
       = [ReadCount (length (read_domains rows)); Starting CONCURRENT_LIMIT]
         ++ map Progress progress
         ++ [Completed; Scanned (length (read_domains rows));
             Found (length (saved out)); SavedTo OUTPUT_FILE]
    /\ announced progress = saved out.
Proof.
  intros Hb Hexec Hdone.
  destruct (run_probes _ _ _ _ _ Hb Hexec Hdone) as (pairs & _ & Hperm & Hdisp).
  set (domains := read_domains rows) in *.
  set (st := fold_left (loop_body (length domains)) pairs loop_init) in *.
  exists {| stdout := [ReadCount (length domains); Starting CONCURRENT_LIMIT]
                      ++ map Progress (printed st)
                      ++ [Completed; Scanned (length domains);
                          Found (length (cf_domains st)); SavedTo OUTPUT_FILE];
            saved := cf_domains st |}, (printed st).
  assert (Hsaved : cf_domains st = map fst (filter snd pairs)).
  { unfold st. now rewrite fold_loop_cf_domains. }
  split; [| split; [| split; [| split]]].
  - unfold main_io, main. fold domains. now rewrite Hdisp.
  - intros domain. cbn [saved]. rewrite Hsaved.
    assert (Hread : In domain domains
                    <-> exists row, In row (firstn MAX_DOMAINS rows)
                                    /\ nth_error row 1 = Some domain).
    { unfold domains.
      destruct (read_domains_second_fields rows) as [-> _].
      rewrite in_flat_map. split; intros (row & Hrow & Hd); exists row;
        (split; [assumption | now apply second_field_nth_error]). }
    rewrite <- Hread. split.
    + intros Hin. apply in_map_iff in Hin. destruct Hin as ([d b] & Hfst & Hin).
      apply filter_In in Hin. destruct Hin as [Hin Hb']. simpl in Hfst, Hb'. subst d b.
      assert (Hres : In (Return (domain, true)) (map (check_cloudflare session) domains)).
      { apply (Permutation_in _ Hperm). now apply in_map. }
      apply in_map_iff in Hres. destruct Hres as (d & Hd & Hdin).
      pose proof (probe_Return_inv _ _ _ Hd) as [Hfst _]. simpl in Hfst. subst d.
      now split.
    + intros [Hin Hprobe].
      assert (Hres : In (Return (domain, true)) (map Return pairs)).
      { apply (Permutation_in _ (Permutation_sym Hperm)).
        rewrite <- Hprobe. now apply in_map. }
      apply in_map_iff in Hres. destruct Hres as (p & Hp & Hpin).
      inversion Hp; subst p.
      apply in_map_iff. exists (domain, true). split; [reflexivity |].
      apply filter_In. now split.
  - cbn [saved]. rewrite Hsaved, length_map.
    pose proof (filter_split_length snd pairs) as Hsplit.
    assert (Hlen : length pairs = length domains).
    { apply Permutation_length in Hperm. now rewrite !length_map in Hperm. }
    destruct (read_domains_second_fields rows) as (_ & Hmax & _).
    fold domains in Hmax. lia.
  - reflexivity.
  - unfold st. rewrite fold_loop_printed, fold_loop_cf_domains. simpl.
    apply spec_observations_announced.
Qed.

Lemma main_io_saves_matches_witness :
  exists out progress,
    main_io sample_rows sample_session (in_order_schedule 2) = Some (Return out)
    /\ (forall domain,
          In domain (saved out)
          <-> (exists row, In row (firstn MAX_DOMAINS sample_rows)
                           /\ nth_error row 1 = Some domain)
              /\ check_cloudflare sample_session domain = Return (domain, true))
    /\ length (saved out) <= MAX_DOMAINS
    /\ stdout out
       = [ReadCount (length (read_domains sample_rows)); Starting CONCURRENT_LIMIT]
         ++ map Progress progress
         ++ [Completed; Scanned (length (read_domains sample_rows));
             Found (length (saved out)); SavedTo OUTPUT_FILE]
    /\ announced progress = saved out.
Proof.
  apply (main_io_saves_matches sample_rows sample_session (in_order_schedule 2)
           {| semaphore := CONCURRENT_LIMIT; waiting := []; in_flight := [];
              finished := [Return ("a.test", true); Return ("c.test", false)] |});
    vm_compute; reflexivity.
Defined.
